(** * LiME layer of volatility: header probe, segment scan and stacker

    Shallow embedding of [volatility/framework/layers/lime.py]:
    [LimeLayer._check_header], [LimeLayer._load_segments],
    [LimeLayer.__init__] and [LimeStacker.stack], with the properties of
    the header codec, the segment index and the format detector. *)

From Stdlib Require Import ZArith Lia List.
From Stdlib.Strings Require Byte.
From stdpp Require Import gmap strings list fin_maps.

Local Open Scope Z_scope.

(** ** Bytes and the little-endian fields of [struct.Struct('<IIQQQ')] *)

Definition byte_val (b : Byte.byte) : Z := Z.of_N (Byte.to_N b).

Definition byte_of_Z (x : Z) : Byte.byte :=
  match Byte.of_N (Z.to_N (x mod 256)) with
  | Some b => b
  | None => Byte.x00
  end.

(** An unsigned integer read least significant byte first. *)
Fixpoint le_decode (bs : list Byte.byte) : Z :=
  match bs with
  | [] => 0
  | b :: rest => byte_val b + 256 * le_decode rest
  end.

(** The [n] low bytes of [x], least significant first. *)
Fixpoint le_encode (n : nat) (x : Z) : list Byte.byte :=
  match n with
  | O => []
  | S m => byte_of_Z x :: le_encode m (x / 256)
  end.

(** Python's [data[o : o + n]] for in-range, non-negative [o] and [n]. *)
Definition slice (data : list Byte.byte) (o n : Z) : list Byte.byte :=
  firstn (Z.to_nat n) (skipn (Z.to_nat o) data).

Definition len (data : list Byte.byte) : Z := Z.of_nat (length data).

(** ** Exceptions

    [LimeFormatException] is raised at five places of the module, each
    with its own message; the constructors keep the raise site and the
    values the message is formatted with. *)
Inductive LimeFormatException : Type :=
  | HeaderReadFailed (offset : Z)
      (* "Offset 0x{:0x} does not exist within the base layer" *)
  | BadMagic (magic offset : Z)
      (* "bad magic 0x{:x} at file offset 0x{:x}" *)
  | UnsupportedVersion (version offset : Z)
      (* "unexpected version {:d} at file offset 0x{:x}" *)
  | BadRange (start end_ offset : Z)
      (* "bad start/end 0x{:x}/0x{:x} at file offset 0x{:x}" *)
  | EmptyContainer (base_layer : string)
      (* "No LiME segments defined in {}" *).

(** Everything that can leave a function of this module as an exception. *)
Inductive exn : Type :=
  | LimeFormat (e : LimeFormatException)
  | StructError            (* struct.error: unpack of a buffer of the wrong size *)
  | KeyError (key : string) (* a missing layer name or configuration path *)
  | OtherError (msg : string) (* raised by the parent class constructor *).

(** Result of a call: a value, an exception, or a scan that was cut off
    before the loop condition became false. *)
Inductive outcome (A : Type) : Type :=
  | Return (a : A)
  | Raise (e : exn)
  | OutOfFuel.
Arguments Return {A} a.
Arguments Raise {A} e.
Arguments OutOfFuel {A}.

(** ** The base layer interface used by the module

    [read offset length] is [None] where the layer raises
    [InvalidAddressException]. *)
Record DataLayer : Type := {
  read : Z -> Z -> option (list Byte.byte);
  maximum_address : Z
}.

(** Modelled from the spec: the byte source behind the interface, whose
    classes are defined outside this module. It "exposes
    read(offset, length) -> bytes | error and maximum_address/total extent"
    and signals the out of range error "when the requested span exceeds
    available data". *)
Definition buffer_read (data : list Byte.byte) (o n : Z) : option (list Byte.byte) :=
  if (0 <=? o) && (0 <=? n) && (o + n <=? len data)
  then Some (slice data o n) else None.

Definition BufferLayer (data : list Byte.byte) : DataLayer :=
  {| read := buffer_read data; maximum_address := len data |}.

(** The same source when [maximum_address] is the last valid address
    rather than the number of bytes. *)
Definition BufferLayerLast (data : list Byte.byte) : DataLayer :=
  {| read := buffer_read data; maximum_address := len data - 1 |}.

(** [L] serves the bytes [data]; its [maximum_address] is the extent of
    [data] or the address of its last byte. *)
Definition backs (L : DataLayer) (data : list Byte.byte) : Prop :=
  (forall o n, read L o n = buffer_read data o n) /\
  len data - 1 <= maximum_address L <= len data.

(** The part of the framework context the module touches:
    [context.memory] (layers by name) and [context.config]. *)
Record Context : Type := {
  memory : gmap string DataLayer;
  config : gmap string string
}.

Module LimeLayer.

Definition MAGIC : Z := 0x4c694d45.
Definition VERSION : Z := 1.

(** [_header_struct = struct.Struct('<IIQQQ')]:
    Magic[4], Version[4], Start[8], End[8], Reserved[8]. *)
Definition _header_struct_size : Z := 4 + 4 + 8 + 8 + 8.

Definition _header_struct_unpack (b : list Byte.byte)
  : option (Z * Z * Z * Z * Z) :=
  if len b =? _header_struct_size then
    Some (le_decode (slice b 0 4), le_decode (slice b 4 4),
          le_decode (slice b 8 8), le_decode (slice b 16 8),
          le_decode (slice b 24 8))
  else None.

(** [_header_struct.pack], the inverse of the unpack above; the module
    itself only unpacks, sources are written with it. *)
Definition _header_struct_pack (magic version start end_ reserved : Z)
  : list Byte.byte :=
  le_encode 4 magic ++ le_encode 4 version ++ le_encode 8 start
    ++ le_encode 8 end_ ++ le_encode 8 reserved.

(** [LimeLayer._check_header(base_layer, offset)] *)
Definition _check_header (base_layer : DataLayer) (offset : Z)
  : outcome (Z * Z) :=
  match read base_layer offset _header_struct_size with
  | None => Raise (LimeFormat (HeaderReadFailed offset))
  | Some header_data =>
      match _header_struct_unpack header_data with
      | None => Raise StructError
      | Some (magic, version, start, end_, reserved) =>
          if negb (magic =? MAGIC) then
            Raise (LimeFormat (BadMagic magic offset))
          else if negb (version =? VERSION) then
            Raise (LimeFormat (UnsupportedVersion version offset))
          else Return (start, end_)
      end
  end.

(** One entry of the segment table, as the tuple the code appends:
    [(start, offset + header_size, segment_length)]. *)
Definition segment : Type := Z * Z * Z.

Definition mapped_start (s : segment) : Z := s.1.1.
Definition source_offset (s : segment) : Z := s.1.2.
Definition length_ (s : segment) : Z := s.2.
Definition mapped_end (s : segment) : Z := mapped_start s + length_ s - 1.

(** The [while offset < base_maxaddr] loop of [_load_segments], with
    its local variables [maxaddr], [offset] and [segments] as
    arguments. [fuel] bounds the number of iterations. *)
Fixpoint _load_segments_loop (fuel : nat) (base_layer : DataLayer)
    (base_maxaddr maxaddr offset : Z) (segments : list segment)
  : outcome (list segment) :=
  if offset <? base_maxaddr then
    match fuel with
    | O => OutOfFuel
    | S fuel' =>
        match _check_header base_layer offset with
        | Return (start, end_) =>
            if (start <? maxaddr) || (end_ <? start) then
              Raise (LimeFormat (BadRange start end_ offset))
            else
              let segment_length := end_ - start + 1 in
              _load_segments_loop fuel' base_layer base_maxaddr end_
                (offset + _header_struct_size + segment_length)
                (segments ++ [(start, offset + _header_struct_size,
                               segment_length)])
        | Raise e => Raise e
        | OutOfFuel => OutOfFuel
        end
    end
  else Return segments.

(** The attributes of a layer object that the module reads or writes. *)
Record t : Type := {
  _context : Context;
  _config_path : string;
  _name : string;
  _base_layer : string;
  _segments : list segment
}.

Definition set_segments (self : t) (segments : list segment) : t :=
  {| _context := _context self; _config_path := _config_path self;
     _name := _name self; _base_layer := _base_layer self;
     _segments := segments |}.

(** [LimeLayer._load_segments(self)]: the object after the call and
    how the call ended. Every iteration moves [offset] forward by more
    than the header size, so [base_maxaddr] iterations are enough. *)
Definition _load_segments (self : t) : t * outcome unit :=
  match memory (_context self) !! _base_layer self with
  | None => (self, Raise (KeyError (_base_layer self)))
  | Some base_layer =>
      let base_maxaddr := maximum_address base_layer in
      match _load_segments_loop (Z.to_nat base_maxaddr) base_layer
              base_maxaddr 0 0 [] with
      | Return segments =>
          if (length segments =? 0)%nat then
            (self, Raise (LimeFormat (EmptyContainer (_base_layer self))))
          else (set_segments self segments, Return tt)
      | Raise e => (self, Raise e)
      | OutOfFuel => (self, OutOfFuel)
      end
  end.

Section Init.
(** [super().__init__] of [segmented.SegmentedLayer] is outside this
    module; it either raises or yields the object to finish. *)
Variable segmented_init : Context -> string -> string -> outcome t.

(** [LimeLayer.__init__(self, context, config_path, name)] *)
Definition __init__ (context : Context) (config_path name : string)
  : outcome t :=
  match segmented_init context config_path name with
  | Return self =>
      match _load_segments self with
      | (self', Return _) => Return self'
      | (_, Raise e) => Raise e
      | (_, OutOfFuel) => OutOfFuel
      end
  | Raise e => Raise e
  | OutOfFuel => OutOfFuel
  end.
End Init.

End LimeLayer.

Module LimeStacker.

Definition stack_order : Z := 10.

Section Stack.
Variable segmented_init :
  Context -> string -> string -> outcome LimeLayer.t.
(** [context.memory.free_layer_name] and
    [interfaces.configuration.path_join], both outside this module. *)
Variable free_layer_name : Context -> string -> string.
Variable path_join : string -> string -> string.

(** [LimeStacker.stack(context, layer_name)]: the context after the
    call and how it ended; [Return None] is Python's [return None]. *)
Definition stack (context : Context) (layer_name : string)
  : Context * outcome (option LimeLayer.t) :=
  match memory context !! layer_name with
  | None => (context, Raise (KeyError layer_name))
  | Some base_layer =>
      match LimeLayer._check_header base_layer 0 with
      | Raise (LimeFormat _) => (context, Return None)
      | Raise e => (context, Raise e)
      | OutOfFuel => (context, OutOfFuel)
      | Return _ =>
          let new_name := free_layer_name context "LimeLayer" in
          let context' :=
            {| memory := memory context;
               config := <[path_join new_name "base_layer" := layer_name]>
                           (config context) |} in
          match LimeLayer.__init__ segmented_init context' new_name
                  new_name with
          | Return layer => (context', Return (Some layer))
          | Raise e => (context', Raise e)
          | OutOfFuel => (context', OutOfFuel)
          end
      end
  end.
End Stack.

End LimeStacker.

(** ** Sources made of segments

    A chunk is one header record (magic and version as the module
    expects them) together with the payload that follows it. *)
Record chunk : Type := {
  c_start : Z;
  c_end : Z;
  c_reserved : Z;
  c_payload : list Byte.byte
}.

Definition encode_chunk (c : chunk) : list Byte.byte :=
  LimeLayer._header_struct_pack LimeLayer.MAGIC LimeLayer.VERSION
    (c_start c) (c_end c) (c_reserved c) ++ c_payload c.

Definition encode_chunks (cs : list chunk) : list Byte.byte :=
  concat (map encode_chunk cs).

(** The three 64-bit fields fit their width, the range is not inverted
    and the payload has exactly [end - start + 1] bytes. *)
Definition chunk_wf (c : chunk) : Prop :=
  0 <= c_start c /\ c_start c <= c_end c /\ c_end c < 2 ^ 64 /\
  0 <= c_reserved c < 2 ^ 64 /\
  len (c_payload c) = c_end c - c_start c + 1.

(** Each start lies strictly above the end of the chunk before it. *)
Fixpoint ascending (cs : list chunk) : Prop :=
  match cs with
  | c1 :: (c2 :: _) as rest => c_end c1 < c_start c2 /\ ascending rest
  | _ => True
  end.

(** What the scan itself asks of the chunks it walks over, starting with
    [maxaddr = prev_end]: no start below the end seen before it. *)
Fixpoint accepted (prev_end : Z) (cs : list chunk) : Prop :=
  match cs with
  | [] => True
  | c :: rest => prev_end <= c_start c /\ chunk_wf c /\ accepted (c_end c) rest
  end.

(** [maxaddr] after the scan has walked over [cs]. *)
Fixpoint last_end (prev_end : Z) (cs : list chunk) : Z :=
  match cs with
  | [] => prev_end
  | c :: rest => last_end (c_end c) rest
  end.

(** The segment table of chunks laid out from file offset [offset]. *)
Fixpoint table (offset : Z) (cs : list chunk) : list LimeLayer.segment :=
  match cs with
  | [] => []
  | c :: rest =>
      (c_start c, offset + LimeLayer._header_struct_size,
       c_end c - c_start c + 1)
      :: table (offset + LimeLayer._header_struct_size
                + (c_end c - c_start c + 1)) rest
  end.

(** File offset of the header of the [i]-th chunk. *)
Definition header_offset (cs : list chunk) (i : nat) : Z :=
  len (encode_chunks (take i cs)).

(** The unsigned little-endian field of [n] bytes at position [o] of the
    header that starts at file offset [off]. *)
Definition field (data : list Byte.byte) (off o n : Z) : Z :=
  le_decode (slice data (off + o) n).

(** [self] is a layer object whose base layer resolves to [L]. *)
Definition layer_over (self : LimeLayer.t) (L : DataLayer) : Prop :=
  memory (LimeLayer._context self) !! LimeLayer._base_layer self = Some L.

(** ** Concrete contexts and objects *)

Definition context_with (name : string) (L : DataLayer) : Context :=
  {| memory := {[ name := L ]}; config := ∅ |}.

Definition layer_on (name : string) (L : DataLayer) : LimeLayer.t :=
  {| LimeLayer._context := context_with name L;
     LimeLayer._config_path := "LimeLayer";
     LimeLayer._name := "LimeLayer";
     LimeLayer._base_layer := name;
     LimeLayer._segments := [] |}.

(** A parent constructor that takes the name of the base layer from the
    configuration entry [stack] writes and starts with an empty table. *)
Definition segmented_init_config (path_join : string -> string -> string)
    (context : Context) (config_path name : string) : outcome LimeLayer.t :=
  match config context !! path_join config_path "base_layer" with
  | None => Raise (KeyError (path_join config_path "base_layer"))
  | Some base =>
      Return {| LimeLayer._context := context;
                LimeLayer._config_path := config_path;
                LimeLayer._name := name;
                LimeLayer._base_layer := base;
                LimeLayer._segments := [] |}
  end.

Definition dotted (a b : string) : string := a +:+ "." +:+ b.

Definition zeros (n : nat) : list Byte.byte := repeat Byte.x00 n.

Definition plain_chunk (s e : Z) : chunk :=
  {| c_start := s; c_end := e; c_reserved := 0;
     c_payload := zeros (Z.to_nat (e - s + 1)) |}.

(** A naming authority: the prefix itself while no layer has that name. *)
Definition fresh_name (context : Context) (prefix : string) : string :=
  match memory context !! prefix with
  | None => prefix
  | Some _ => prefix +:+ "1"
  end.

(** [stack] with the collaborators above. *)
Definition stack_default : Context -> string -> Context * outcome (option LimeLayer.t) :=
  LimeStacker.stack (segmented_init_config dotted) fresh_name dotted.

(** One header with start 0 and end 255, 256 payload bytes, end of source. *)
Definition one_segment_source : list Byte.byte :=
  encode_chunks [plain_chunk 0 255].

(** Two segments, the second starting at the end address of the first. *)
Definition touching_source : list Byte.byte :=
  encode_chunks [plain_chunk 0 255; plain_chunk 255 511].

(** Two segments with a gap between them. *)
Definition two_segment_source : list Byte.byte :=
  encode_chunks [plain_chunk 0 255; plain_chunk 4096 4351].

(** A valid first segment and then a header whose end is below its start. *)
Definition inverted_source : list Byte.byte :=
  encode_chunks [plain_chunk 0 255]
    ++ LimeLayer._header_struct_pack LimeLayer.MAGIC LimeLayer.VERSION 4096 512 0.

(** A header with the right magic and version 2, and its payload. *)
Definition version2_source : list Byte.byte :=
  LimeLayer._header_struct_pack LimeLayer.MAGIC 2 0 255 0 ++ zeros 256.

(** 32 bytes that do not start with the magic. *)
Definition no_magic_source : list Byte.byte := zeros 32.

(** Four bytes that are not the magic, and nothing else. *)
Definition four_byte_source : list Byte.byte := zeros 4.

(** The first 28 bytes of a valid header: magic, version, start, end and
    half of the reserved field. *)
Definition header_prefix_28 : list Byte.byte :=
  take 28 (LimeLayer._header_struct_pack LimeLayer.MAGIC LimeLayer.VERSION 0 255 0).

(** A header that passes the probe although its end is below its start. *)
Definition inverted_header : list Byte.byte :=
  LimeLayer._header_struct_pack LimeLayer.MAGIC LimeLayer.VERSION 4096 512 0.

(** What the loop guarantees of the entries it appends when it starts
    with [maxaddr] and [offset] and scans a layer of extent
    [base_maxaddr]: each header lies below the extent, its start is not
    below the end before it, its range is not inverted and fits 64 bits,
    and the next header is looked for right behind the payload. *)
Fixpoint chained (base_maxaddr maxaddr offset : Z)
    (segments : list LimeLayer.segment) : Prop :=
  match segments with
  | [] => True
  | (start, src, length) :: rest =>
      offset < base_maxaddr /\
      maxaddr <= start /\ 0 <= start /\ 1 <= length /\
      start + length - 1 < 2 ^ 64 /\
      src = offset + LimeLayer._header_struct_size /\
      chained base_maxaddr (start + length - 1) (src + length) rest
  end.

(** A first segment and then a header that starts inside it. *)
Definition overlapping_source : list Byte.byte :=
  encode_chunks [plain_chunk 0 255]
    ++ LimeLayer._header_struct_pack LimeLayer.MAGIC LimeLayer.VERSION 100 600 0.

(** A header for [0, 255] with only 3 of its 256 payload bytes. *)
Definition truncated_source : list Byte.byte :=
  LimeLayer._header_struct_pack LimeLayer.MAGIC LimeLayer.VERSION 0 255 0
    ++ zeros 3.

(** A whole segment and 10 more bytes. *)
Definition trailing_source : list Byte.byte :=
  encode_chunks [plain_chunk 0 255] ++ zeros 10.

(** A whole segment and a second header with version 2. *)
Definition later_version2_source : list Byte.byte :=
  encode_chunks [plain_chunk 0 255]
    ++ LimeLayer._header_struct_pack LimeLayer.MAGIC 2 4096 4351 0.

(** ** The header codec *)

Section Codec.

Lemma byte_val_range b : 0 <= byte_val b < 256.
Proof.
  unfold byte_val. pose proof (Byte.to_N_bounded b). lia.
Qed.

Lemma byte_val_of_Z x : byte_val (byte_of_Z x) = x mod 256.
Proof.
  unfold byte_val, byte_of_Z.
  assert (Hr : 0 <= x mod 256 < 256) by (apply Z.mod_pos_bound; lia).
  destruct (Byte.of_N (Z.to_N (x mod 256))) as [b|] eqn:E.
  - apply Byte.to_of_N in E. rewrite E. lia.
  - apply Byte.of_N_None_iff in E. lia.
Qed.

Lemma length_le_encode n x : length (le_encode n x) = n.
Proof. revert x. induction n as [|n IH]; intros x; simpl; [done|]. by rewrite IH. Qed.

Lemma le_decode_encode n x :
  le_decode (le_encode n x) = x mod 256 ^ Z.of_nat n.
Proof.
  revert x. induction n as [|n IH]; intros x.
  - simpl. by rewrite Z.mod_1_r.
  - cbn [le_encode le_decode]. rewrite IH, byte_val_of_Z.
    rewrite Nat2Z.inj_succ, Z.pow_succ_r by lia.
    rewrite (Z.rem_mul_r x 256 (256 ^ Z.of_nat n)) by lia. lia.
Qed.

Lemma le_decode_encode_id n x :
  0 <= x < 256 ^ Z.of_nat n -> le_decode (le_encode n x) = x.
Proof. intros H. rewrite le_decode_encode. by apply Z.mod_small. Qed.

Lemma le_decode_range bs : 0 <= le_decode bs < 256 ^ len bs.
Proof.
  unfold len. induction bs as [|b bs IH].
  - simpl. lia.
  - cbn [le_decode length]. pose proof (byte_val_range b).
    rewrite Nat2Z.inj_succ, Z.pow_succ_r by lia. lia.
Qed.

End Codec.

(** ** Reading from a byte source *)

Section Reading.

Lemma len_app a b : len (a ++ b) = len a + len b.
Proof. unfold len. rewrite length_app. lia. Qed.

Lemma len_nonneg a : 0 <= len a.
Proof. unfold len. lia. Qed.

Lemma len_pack m v s e r :
  len (LimeLayer._header_struct_pack m v s e r) = LimeLayer._header_struct_size.
Proof. reflexivity. Qed.

Lemma slice_middle pre x post :
  slice (pre ++ x ++ post) (len pre) (len x) = x.
Proof.
  unfold slice, len. rewrite !Nat2Z.id.
  rewrite drop_app_length. by rewrite take_app_length.
Qed.

Lemma slice_slice d off o n :
  0 <= off -> 0 <= o -> 0 <= n -> o + n <= LimeLayer._header_struct_size ->
  slice (slice d off LimeLayer._header_struct_size) o n = slice d (off + o) n.
Proof.
  intros Hoff Ho Hn Hle. unfold slice.
  rewrite skipn_firstn_comm, take_take, drop_drop.
  f_equal; [|f_equal]; lia.
Qed.

Lemma len_slice d o n :
  0 <= o -> 0 <= n -> o + n <= len d -> len (slice d o n) = n.
Proof.
  unfold slice, len. intros Ho Hn Hle.
  rewrite length_take, length_drop. lia.
Qed.

Lemma unpack_pack m v s e r :
  LimeLayer._header_struct_unpack (LimeLayer._header_struct_pack m v s e r)
  = Some (m mod 2 ^ 32, v mod 2 ^ 32, s mod 2 ^ 64, e mod 2 ^ 64, r mod 2 ^ 64).
Proof.
  unfold LimeLayer._header_struct_unpack. rewrite len_pack, Z.eqb_refl.
  change (slice (LimeLayer._header_struct_pack m v s e r) 0 4) with (le_encode 4 m).
  change (slice (LimeLayer._header_struct_pack m v s e r) 4 4) with (le_encode 4 v).
  change (slice (LimeLayer._header_struct_pack m v s e r) 8 8) with (le_encode 8 s).
  change (slice (LimeLayer._header_struct_pack m v s e r) 16 8) with (le_encode 8 e).
  change (slice (LimeLayer._header_struct_pack m v s e r) 24 8) with (le_encode 8 r).
  by rewrite !le_decode_encode.
Qed.

Variables (L : DataLayer) (data : list Byte.byte).
Hypothesis HL : backs L data.

Lemma read_header_in off :
  0 <= off -> off + LimeLayer._header_struct_size <= len data ->
  read L off LimeLayer._header_struct_size
  = Some (slice data off LimeLayer._header_struct_size).
Proof.
  intros H0 H1. destruct HL as [Hr _]. rewrite Hr. unfold buffer_read.
  replace (0 <=? off) with true by (symmetry; apply Z.leb_le; lia).
  replace (off + LimeLayer._header_struct_size <=? len data) with true
    by (symmetry; apply Z.leb_le; lia).
  reflexivity.
Qed.

Lemma read_header_out off :
  len data < off + LimeLayer._header_struct_size ->
  read L off LimeLayer._header_struct_size = None.
Proof.
  intros H1. destruct HL as [Hr _]. rewrite Hr. unfold buffer_read.
  replace (off + LimeLayer._header_struct_size <=? len data) with false
    by (symmetry; apply Z.leb_gt; lia).
  by rewrite andb_false_r.
Qed.

(** The probe on a byte source, by the fields it decodes. *)
Lemma check_header_fields off :
  0 <= off -> off + LimeLayer._header_struct_size <= len data ->
  LimeLayer._check_header L off =
    if negb (field data off 0 4 =? LimeLayer.MAGIC) then
      Raise (LimeFormat (BadMagic (field data off 0 4) off))
    else if negb (field data off 4 4 =? LimeLayer.VERSION) then
      Raise (LimeFormat (UnsupportedVersion (field data off 4 4) off))
    else Return (field data off 8 8, field data off 16 8).
Proof.
  intros H0 H1. unfold LimeLayer._check_header.
  rewrite read_header_in by done.
  unfold LimeLayer._header_struct_unpack.
  rewrite len_slice by (done || (unfold LimeLayer._header_struct_size; lia)).
  rewrite Z.eqb_refl.
  rewrite !slice_slice by (unfold LimeLayer._header_struct_size; lia).
  reflexivity.
Qed.

Lemma check_header_short off :
  len data < off + LimeLayer._header_struct_size ->
  LimeLayer._check_header L off = Raise (LimeFormat (HeaderReadFailed off)).
Proof.
  intros H. unfold LimeLayer._check_header. by rewrite read_header_out.
Qed.

End Reading.

(** ** The scan loop *)

Section Scan.

Import LimeLayer.

Lemma check_header_fuel L off : _check_header L off <> OutOfFuel.
Proof.
  unfold _check_header.
  destruct (read L off _header_struct_size) as [h|]; [|done].
  destruct (_header_struct_unpack h) as [[[[[m v] s] e] r]|]; [|done].
  destruct (negb (m =? MAGIC)); [done|].
  by destruct (negb (v =? VERSION)).
Qed.

(** The loop never stops for want of fuel when it is given the
    distance to [base_maxaddr]. *)
Lemma loop_total L base_maxaddr fuel :
  forall maxaddr offset segments,
    base_maxaddr - offset <= Z.of_nat fuel ->
    _load_segments_loop fuel L base_maxaddr maxaddr offset segments
    <> OutOfFuel.
Proof.
  induction fuel as [|fuel IH]; intros maxaddr offset segments Hfuel.
  - simpl. destruct (offset <? base_maxaddr) eqn:E; [|done].
    apply Z.ltb_lt in E. lia.
  - cbn [_load_segments_loop].
    destruct (offset <? base_maxaddr) eqn:E; [|done].
    pose proof (check_header_fuel L offset) as Hc.
    destruct (_check_header L offset) as [[s e]| |]; [|done|done].
    destruct ((s <? maxaddr) || (e <? s)) eqn:Eb; [done|].
    apply orb_false_iff in Eb as [_ Hes]. apply Z.ltb_ge in Hes.
    apply IH. unfold _header_struct_size. lia.
Qed.

(** More fuel does not change a scan that came to an end. *)
Lemma loop_more_fuel L base_maxaddr fuel :
  forall extra maxaddr offset segments,
    _load_segments_loop fuel L base_maxaddr maxaddr offset segments
    <> OutOfFuel ->
    _load_segments_loop (fuel + extra) L base_maxaddr maxaddr offset segments
    = _load_segments_loop fuel L base_maxaddr maxaddr offset segments.
Proof.
  induction fuel as [|fuel IH]; intros extra maxaddr offset segments H.
  - simpl in H. destruct (offset <? base_maxaddr) eqn:E; [done|].
    destruct extra; simpl; by rewrite E.
  - cbn [_load_segments_loop Nat.add] in *.
    destruct (offset <? base_maxaddr); [|done].
    destruct (_check_header L offset) as [[s e]| |]; [|done|done].
    destruct ((s <? maxaddr) || (e <? s)); [done|].
    by apply IH.
Qed.

(** Past the extent of the source the loop stops with what it has. *)
Lemma loop_done L base_maxaddr fuel maxaddr offset segments :
  base_maxaddr <= offset ->
  _load_segments_loop fuel L base_maxaddr maxaddr offset segments
  = Return segments.
Proof.
  intros H. destruct fuel; simpl;
    by replace (offset <? base_maxaddr) with false
      by (symmetry; apply Z.ltb_ge; lia).
Qed.

Lemma len_encode_chunk c :
  chunk_wf c ->
  len (encode_chunk c) = _header_struct_size + (c_end c - c_start c + 1).
Proof.
  intros (_ & _ & _ & _ & Hp). unfold encode_chunk.
  by rewrite len_app, len_pack, Hp.
Qed.

Lemma encode_chunks_cons c cs :
  encode_chunks (c :: cs) = encode_chunk c ++ encode_chunks cs.
Proof. reflexivity. Qed.

Lemma accepted_wf m cs : accepted m cs -> Forall chunk_wf cs.
Proof.
  revert m. induction cs as [|c cs IH]; intros m H; [constructor|].
  destruct H as (_ & Hc & Hr). constructor; eauto.
Qed.

Lemma len_encode_chunks cs :
  Forall chunk_wf cs ->
  (_header_struct_size + 1) * Z.of_nat (length cs) <= len (encode_chunks cs).
Proof.
  induction 1 as [|c cs Hc _ IH]; [simpl; unfold len; simpl; lia|].
  rewrite encode_chunks_cons, len_app, len_encode_chunk by done.
  destruct Hc as (? & ? & _). cbn [length]. lia.
Qed.

Section OverSource.
Variable L : DataLayer.

(** The probe at the header of a chunk returns its range. *)
Lemma check_header_pack pre s e r post :
  backs L (pre ++ _header_struct_pack MAGIC VERSION s e r ++ post) ->
  0 <= s < 2 ^ 64 -> 0 <= e < 2 ^ 64 ->
  _check_header L (len pre) = Return (s, e).
Proof.
  intros HL Hs He. unfold _check_header.
  rewrite (read_header_in L _ HL).
  - rewrite <- (len_pack MAGIC VERSION s e r), slice_middle, unpack_pack.
    rewrite (Z.mod_small s), (Z.mod_small e) by done.
    reflexivity.
  - apply len_nonneg.
  - rewrite !len_app, len_pack. pose proof (len_nonneg post). lia.
Qed.

Lemma check_header_chunk pre c post :
  backs L (pre ++ encode_chunk c ++ post) -> chunk_wf c ->
  _check_header L (len pre) = Return (c_start c, c_end c).
Proof.
  intros HL (H0 & H1 & H2 & _ & _). unfold encode_chunk in HL.
  rewrite <- app_assoc in HL.
  apply (check_header_pack _ _ _ _ _ HL); lia.
Qed.

(** The loop walks over a run of chunks it accepts, adding one
    table entry for each, and goes on behind them. *)
Lemma loop_chunks cs :
  forall fuel pre post maxaddr segments,
    backs L (pre ++ encode_chunks cs ++ post) ->
    accepted maxaddr cs ->
    _load_segments_loop (length cs + fuel) L (maximum_address L) maxaddr
      (len pre) segments
    = _load_segments_loop fuel L (maximum_address L) (last_end maxaddr cs)
        (len pre + len (encode_chunks cs))
        (segments ++ table (len pre) cs).
Proof.
  induction cs as [|c cs IH]; intros fuel pre post maxaddr segments HL Hacc.
  - simpl. change (encode_chunks []) with (@nil Byte.byte).
    unfold len at 2. simpl. by rewrite Z.add_0_r, app_nil_r.
  - destruct Hacc as (Hm & Hc & Hacc).
    rewrite encode_chunks_cons, <- app_assoc in HL.
    cbn [length Nat.add _load_segments_loop].
    assert (Hlt : (len pre <? maximum_address L) = true).
    { apply Z.ltb_lt. destruct HL as [_ Hmax].
      rewrite !len_app, len_encode_chunk in Hmax by done.
      pose proof (len_nonneg (encode_chunks cs)).
      pose proof (len_nonneg post).
      destruct Hc as (? & ? & _). unfold _header_struct_size in *. lia. }
    rewrite Hlt, (check_header_chunk _ _ _ HL Hc).
    replace ((c_start c <? maxaddr) || (c_end c <? c_start c)) with false.
    2:{ symmetry. apply orb_false_iff. split; apply Z.ltb_ge;
        [lia | destruct Hc as (? & ? & _); lia]. }
    cbv zeta.
    replace (len pre + _header_struct_size + (c_end c - c_start c + 1))
      with (len (pre ++ encode_chunk c))
      by (rewrite len_app, len_encode_chunk by done; lia).
    rewrite (IH fuel (pre ++ encode_chunk c) post).
    + cbn [last_end table]. rewrite encode_chunks_cons, !len_app.
      rewrite <- app_assoc. cbn [app].
      rewrite len_encode_chunk by done.
      f_equal; [lia|]. do 3 f_equal. lia.
    + by rewrite <- app_assoc.
    + done.
Qed.

End OverSource.

End Scan.

(** ** The segment index built by [_load_segments] *)

Section Index.

Import LimeLayer.

Lemma loop_fuel_agree L base_maxaddr f1 f2 maxaddr offset segments :
  _load_segments_loop f1 L base_maxaddr maxaddr offset segments <> OutOfFuel ->
  _load_segments_loop f2 L base_maxaddr maxaddr offset segments <> OutOfFuel ->
  _load_segments_loop f1 L base_maxaddr maxaddr offset segments
  = _load_segments_loop f2 L base_maxaddr maxaddr offset segments.
Proof.
  intros H1 H2. destruct (Nat.le_ge_cases f1 f2) as [Hle|Hle].
  - replace f2 with (f1 + (f2 - f1))%nat by lia.
    symmetry. by apply loop_more_fuel.
  - replace f1 with (f2 + (f1 - f2))%nat by lia.
    by apply loop_more_fuel.
Qed.

(** A scan that ends with some fuel ends the same way with the fuel
    [_load_segments] gives it. *)
Lemma scan_with_fuel L fuel r :
  _load_segments_loop fuel L (maximum_address L) 0 0 [] = r ->
  r <> OutOfFuel ->
  _load_segments_loop (Z.to_nat (maximum_address L)) L (maximum_address L)
    0 0 [] = r.
Proof.
  intros Hr Hne. subst r. apply loop_fuel_agree; [|done].
  apply loop_total. lia.
Qed.

Lemma load_segments_total self : (_load_segments self).2 <> OutOfFuel.
Proof.
  unfold _load_segments.
  destruct (memory (_context self) !! _base_layer self) as [L|]; [|done].
  pose proof (loop_total L (maximum_address L)
                (Z.to_nat (maximum_address L)) 0 0 []) as Ht.
  destruct (_load_segments_loop _ _ _ _ _ _) as [segs|e|].
  - by destruct (length segs =? 0)%nat.
  - done.
  - exfalso. apply Ht; [lia|done].
Qed.

Lemma load_segments_raise self L fuel e :
  layer_over self L ->
  _load_segments_loop fuel L (maximum_address L) 0 0 [] = Raise e ->
  _load_segments self = (self, Raise e).
Proof.
  intros Hover Hloop. unfold _load_segments. rewrite Hover. cbv zeta.
  by rewrite (scan_with_fuel L fuel (Raise e)).
Qed.

Lemma load_segments_return self L fuel segments :
  layer_over self L ->
  _load_segments_loop fuel L (maximum_address L) 0 0 [] = Return segments ->
  _load_segments self =
    if (length segments =? 0)%nat
    then (self, Raise (LimeFormat (EmptyContainer (_base_layer self))))
    else (set_segments self segments, Return tt).
Proof.
  intros Hover Hloop. unfold _load_segments. rewrite Hover. cbv zeta.
  by rewrite (scan_with_fuel L fuel (Return segments)).
Qed.

Lemma ascending_accepted cs :
  forall m, Forall chunk_wf cs -> ascending cs ->
    (forall c, head cs = Some c -> m <= c_start c) -> accepted m cs.
Proof.
  induction cs as [|c cs IH]; intros m Hwf Hasc Hm; [done|].
  inversion Hwf as [|? ? Hc Hcs]; subst.
  split; [by apply Hm|]. split; [done|].
  apply IH; [done| |].
  - destruct cs; [done|]. by destruct Hasc.
  - intros c' Hc'. destruct cs as [|c2 cs]; [done|].
    simpl in Hc'. injection Hc' as <-. destruct Hasc. lia.
Qed.

Lemma length_table cs : forall o, length (table o cs) = length cs.
Proof. induction cs as [|c cs IH]; intros o; simpl; [done|]. by rewrite IH. Qed.

Lemma table_lookup cs :
  forall o i c, Forall chunk_wf cs -> cs !! i = Some c ->
    table o cs !! i
    = Some (c_start c, o + len (encode_chunks (take i cs)) + _header_struct_size,
            c_end c - c_start c + 1).
Proof.
  induction cs as [|c0 cs IH]; intros o i c Hwf Hi; [done|].
  inversion Hwf as [|? ? Hc Hcs]; subst.
  destruct i as [|i].
  - simpl in Hi. injection Hi as <-. simpl. unfold len. simpl.
    do 3 f_equal. lia.
  - simpl in Hi. cbn [table take]. rewrite encode_chunks_cons, len_app.
    rewrite len_encode_chunk by done. simpl.
    rewrite (IH _ i c) by done. do 3 f_equal. lia.
Qed.

(** The scan of a source made of chunks the loop accepts. *)
Lemma load_segments_accepted self L cs :
  layer_over self L -> backs L (encode_chunks cs) -> cs <> [] ->
  accepted 0 cs ->
  _load_segments self = (set_segments self (table 0 cs), Return tt).
Proof.
  intros Hover HL Hne Hacc.
  rewrite (load_segments_return self L (length cs + 0) (table 0 cs) Hover).
  - rewrite length_table. by destruct cs.
  - assert (HL' : backs L ([] ++ encode_chunks cs ++ []))
      by (simpl; by rewrite app_nil_r).
    pose proof (loop_chunks L cs 0%nat [] [] 0 [] HL' Hacc) as Hrun.
    change (len []) with 0 in Hrun. rewrite Z.add_0_l in Hrun.
    rewrite Hrun. apply loop_done. destruct HL as [_ ?]. lia.
Qed.

End Index.

(** ** Properties of the segment index *)

Section IndexProperties.

Import LimeLayer.

Lemma layer_on_over name L : layer_over (layer_on name L) L.
Proof. unfold layer_over, layer_on, context_with. simpl. apply lookup_singleton_eq. Qed.

Lemma backs_buffer data : backs (BufferLayer data) data.
Proof. split; [done|]. simpl. lia. Qed.

Lemma backs_buffer_last data : backs (BufferLayerLast data) data.
Proof. split; [done|]. simpl. lia. Qed.

Lemma plain_chunk_wf s e :
  0 <= s -> s <= e -> e < 2 ^ 64 -> chunk_wf (plain_chunk s e).
Proof.
  intros H0 H1 H2. unfold chunk_wf, plain_chunk, zeros, len. simpl.
  rewrite repeat_length. lia.
Qed.

(** Two chunks of which the second starts at the end address of the
    first are both indexed. *)
Lemma touching_chunks_indexed self L c1 c2 :
  layer_over self L -> backs L (encode_chunks [c1; c2]) ->
  chunk_wf c1 -> chunk_wf c2 -> c_start c2 = c_end c1 ->
  _load_segments self = (set_segments self (table 0 [c1; c2]), Return tt).
Proof.
  intros Hover HL Hc1 Hc2 Heq.
  apply (load_segments_accepted self L [c1; c2] Hover HL); [done|].
  simpl. split; [by destruct Hc1|]. split; [done|].
  split; [lia|]. by split.
Qed.

(** C1: a second header whose start equals the end of the segment
    before it is expected to fail with BadRange. On the source with
    segments [0,255] and [255,511] the scan fails nowhere: it returns
    a table of two segments that both cover address 255. *)
Theorem touching_segments_indexed :
  _load_segments (layer_on "base" (BufferLayer touching_source))
  = (set_segments (layer_on "base" (BufferLayer touching_source))
       [(0, 32, 256); (255, 320, 257)],
     Return tt)
  /\ mapped_end (0, 32, 256) = 255
  /\ mapped_start (255, 320, 257) = 255.
Proof.
  split; [|by split].
  apply (touching_chunks_indexed _ (BufferLayer touching_source)
           (plain_chunk 0 255) (plain_chunk 255 511)).
  - apply layer_on_over.
  - apply backs_buffer.
  - apply plain_chunk_wf; lia.
  - apply plain_chunk_wf; lia.
  - reflexivity.
Qed.

(** C2 (as stated, with a header of 28 bytes): the source of the
    spec's scenario, a header for [0,255] with 8 reserved bytes and 256
    payload bytes, is indexed with source offset 32, not 0 + 28; so is
    the source whose header is cut to 28 bytes. *)
Lemma one_segment_offset_not_28 :
  _load_segments (layer_on "base" (BufferLayer one_segment_source))
  = (set_segments (layer_on "base" (BufferLayer one_segment_source))
       [(0, 32, 256)], Return tt)
  /\ header_offset [plain_chunk 0 255] 0 = 0
  /\ source_offset (0, 32, 256) <> header_offset [plain_chunk 0 255] 0 + 28
  /\ _load_segments
       (layer_on "base" (BufferLayer (header_prefix_28 ++ zeros 256)))
     = (set_segments
          (layer_on "base" (BufferLayer (header_prefix_28 ++ zeros 256)))
          [(0, 32, 256)], Return tt).
Proof.
  split; [|split; [|split]].
  - apply (load_segments_accepted _ (BufferLayer one_segment_source)
             [plain_chunk 0 255]).
    + apply layer_on_over.
    + apply backs_buffer.
    + done.
    + simpl. split; [lia|]. split; [|done]. apply plain_chunk_wf; lia.
  - reflexivity.
  - vm_compute. discriminate.
  - rewrite (load_segments_return _
               (BufferLayer (header_prefix_28 ++ zeros 256)) 1
               [(0, 32, 256)]).
    + reflexivity.
    + apply layer_on_over.
    + vm_compute. reflexivity.
Qed.

(** C2 (amended): for a source made of N >= 1 well-formed chunks with
    strictly increasing ranges, each a 32-byte header with the right
    magic and version followed by exactly end - start + 1 payload
    bytes, [_load_segments] succeeds and stores exactly N segments in
    input order; the i-th has the start of the i-th header, the file
    offset of that header plus 32, and length end - start + 1. *)
Theorem load_segments_chunks self L cs :
  layer_over self L -> backs L (encode_chunks cs) -> cs <> [] ->
  Forall chunk_wf cs -> ascending cs ->
  exists segments,
    _load_segments self = (set_segments self segments, Return tt) /\
    length segments = length cs /\
    forall i c, cs !! i = Some c ->
      exists seg, segments !! i = Some seg /\
        mapped_start seg = c_start c /\
        mapped_end seg = c_end c /\
        source_offset seg = header_offset cs i + 32 /\
        length_ seg = c_end c - c_start c + 1.
Proof.
  intros Hover HL Hne Hwf Hasc. exists (table 0 cs).
  split; [|split].
  - apply (load_segments_accepted self L cs Hover HL Hne).
    apply ascending_accepted; [done|done|].
    intros c Hc. destruct cs as [|c0 cs]; [done|].
    simpl in Hc. injection Hc as <-.
    inversion Hwf as [|? ? (? & _) _]. lia.
  - apply length_table.
  - intros i c Hi. eexists. split; [by apply table_lookup|].
    unfold mapped_end, mapped_start, source_offset, length_, header_offset.
    cbn [fst snd]. unfold _header_struct_size. repeat split; lia.
Qed.

Lemma load_segments_chunks_witness :
  exists segments,
    _load_segments (layer_on "base" (BufferLayer two_segment_source))
    = (set_segments (layer_on "base" (BufferLayer two_segment_source)) segments,
       Return tt) /\
    length segments = 2%nat /\
    forall i c, [plain_chunk 0 255; plain_chunk 4096 4351] !! i = Some c ->
      exists seg, segments !! i = Some seg /\
        mapped_start seg = c_start c /\
        mapped_end seg = c_end c /\
        source_offset seg
        = header_offset [plain_chunk 0 255; plain_chunk 4096 4351] i + 32 /\
        length_ seg = c_end c - c_start c + 1.
Proof.
  apply (load_segments_chunks
           (layer_on "base" (BufferLayer two_segment_source))
           (BufferLayer two_segment_source)
           [plain_chunk 0 255; plain_chunk 4096 4351]).
  - apply layer_on_over.
  - apply backs_buffer.
  - discriminate.
  - repeat constructor; apply plain_chunk_wf; lia.
  - simpl. split; [lia|exact I].
Defined.

(** The scan behind a run of accepted chunks at the start of the source. *)
Lemma scan_behind_chunks L cs post fuel :
  backs L (encode_chunks cs ++ post) -> accepted 0 cs ->
  _load_segments_loop (length cs + fuel) L (maximum_address L) 0 0 []
  = _load_segments_loop fuel L (maximum_address L) (last_end 0 cs)
      (len (encode_chunks cs)) (table 0 cs).
Proof.
  intros HL Hacc.
  pose proof (loop_chunks L cs fuel [] post 0 [] HL Hacc) as Hrun.
  change (len []) with 0 in Hrun. by rewrite Z.add_0_l in Hrun.
Qed.

(** The range check of the loop, at a header the scan meets behind a run
    of accepted chunks. *)
Lemma range_check_fails self L cs s e r rest :
  layer_over self L ->
  backs L (encode_chunks cs ++ _header_struct_pack MAGIC VERSION s e r ++ rest) ->
  accepted 0 cs ->
  0 <= s < 2 ^ 64 -> 0 <= e < 2 ^ 64 ->
  (s <? last_end 0 cs) || (e <? s) = true ->
  _load_segments self
  = (self, Raise (LimeFormat (BadRange s e (len (encode_chunks cs))))).
Proof.
  intros Hover HL Hacc Hs He Hbad.
  apply (load_segments_raise self L (length cs + 1) _ Hover).
  rewrite (scan_behind_chunks L cs _ 1 HL Hacc).
  cbn [_load_segments_loop].
  replace (len (encode_chunks cs) <? maximum_address L) with true.
  2:{ symmetry. apply Z.ltb_lt. destruct HL as [_ Hmax].
      rewrite !len_app, len_pack in Hmax. pose proof (len_nonneg rest).
      unfold _header_struct_size in Hmax. lia. }
  by rewrite (check_header_pack L _ s e r rest HL Hs He), Hbad.
Qed.

(** X4: a header that starts strictly below the end of the segment
    before it makes [_load_segments] fail with BadRange at the file
    offset of that header, whatever its end is. *)
Lemma overlapping_start_rejected self L cs s e r rest :
  layer_over self L ->
  backs L (encode_chunks cs ++ _header_struct_pack MAGIC VERSION s e r ++ rest) ->
  accepted 0 cs ->
  0 <= s < 2 ^ 64 -> 0 <= e < 2 ^ 64 ->
  s < last_end 0 cs ->
  _load_segments self
  = (self, Raise (LimeFormat (BadRange s e (len (encode_chunks cs))))).
Proof.
  intros Hover HL Hacc Hs He Hlt.
  apply (range_check_fails self L cs s e r rest); try done.
  apply orb_true_iff. left. by apply Z.ltb_lt.
Qed.

(** C4: a header whose end field is below its start field makes
    [_load_segments] fail with BadRange, wherever the scan meets it
    (behind any run of segments it accepted) and whatever its start is
    compared to the end of the segment before it. *)
Theorem inverted_range_rejected self L cs s e r rest :
  layer_over self L ->
  backs L (encode_chunks cs ++ _header_struct_pack MAGIC VERSION s e r ++ rest) ->
  accepted 0 cs ->
  0 <= s < 2 ^ 64 -> 0 <= e < 2 ^ 64 ->
  e < s ->
  _load_segments self
  = (self, Raise (LimeFormat (BadRange s e (len (encode_chunks cs))))).
Proof.
  intros Hover HL Hacc Hs He Hes.
  apply (range_check_fails self L cs s e r rest); try done.
  apply orb_true_iff. right. by apply Z.ltb_lt.
Qed.

Lemma inverted_range_rejected_witness :
  _load_segments (layer_on "base" (BufferLayer inverted_source))
  = (layer_on "base" (BufferLayer inverted_source),
     Raise (LimeFormat (BadRange 4096 512 288))).
Proof.
  apply (inverted_range_rejected
           (layer_on "base" (BufferLayer inverted_source))
           (BufferLayer inverted_source) [plain_chunk 0 255] 4096 512 0 []).
  - apply layer_on_over.
  - unfold inverted_source. rewrite app_nil_r. apply backs_buffer.
  - simpl. split; [lia|]. split; [apply plain_chunk_wf; lia|exact I].
  - lia.
  - lia.
  - lia.
Defined.

(** C7: when [_load_segments] ends with an exception the layer object
    is the one it started with; in particular the segment table it
    held is still in place and no part of the scanned list is stored. *)
Theorem load_segments_failure_keeps_layer self self' e :
  _load_segments self = (self', Raise e) ->
  self' = self /\ _segments self' = _segments self.
Proof.
  unfold _load_segments. intros H.
  destruct (memory (_context self) !! _base_layer self) as [L|].
  - destruct (_load_segments_loop _ _ _ _ _ _) as [segs|e'|].
    + destruct (length segs =? 0)%nat; by inversion H.
    + by inversion H.
    + by inversion H.
  - by inversion H.
Qed.

Lemma load_segments_failure_keeps_layer_witness :
  (_load_segments
     (set_segments (layer_on "base" (BufferLayer inverted_source))
        [(7, 7, 7)])).1
  = set_segments (layer_on "base" (BufferLayer inverted_source)) [(7, 7, 7)]
  /\ _segments
       (_load_segments
          (set_segments (layer_on "base" (BufferLayer inverted_source))
             [(7, 7, 7)])).1
     = [(7, 7, 7)].
Proof.
  apply (load_segments_failure_keeps_layer
           (set_segments (layer_on "base" (BufferLayer inverted_source))
              [(7, 7, 7)])
           _ (LimeFormat (BadRange 4096 512 288))).
  vm_compute. reflexivity.
Defined.

(** On success the table stored is the list the whole scan returned;
    nothing else of the object changes. *)
Lemma load_segments_success_stores_scan self self' :
  _load_segments self = (self', Return tt) ->
  exists L segments,
    layer_over self L /\
    _load_segments_loop (Z.to_nat (maximum_address L)) L (maximum_address L)
      0 0 [] = Return segments /\
    self' = set_segments self segments.
Proof.
  unfold _load_segments, layer_over. intros H.
  destruct (memory (_context self) !! _base_layer self) as [L|];
    [|by inversion H].
  exists L. cbv zeta in H.
  destruct (_load_segments_loop _ _ _ _ _ _) as [segs|e'|];
    [|by inversion H|by inversion H].
  exists segs. destruct (length segs =? 0)%nat; by inversion H.
Qed.

(** C8: a table stored by a successful [_load_segments] has at least
    one segment, and a scan loop that ends with no segment collected
    makes [_load_segments] fail with EmptyContainer. *)
Theorem load_segments_never_empty :
  (forall self self',
     _load_segments self = (self', Return tt) -> _segments self' <> []) /\
  (forall self L,
     layer_over self L ->
     _load_segments_loop (Z.to_nat (maximum_address L)) L
       (maximum_address L) 0 0 [] = Return [] ->
     _load_segments self
     = (self, Raise (LimeFormat (EmptyContainer (_base_layer self))))).
Proof.
  split.
  - intros self self'. unfold _load_segments. intros H.
    destruct (memory (_context self) !! _base_layer self) as [L|];
      [|by inversion H].
    destruct (_load_segments_loop _ _ _ _ _ _) as [segs|e'|];
      [|by inversion H|by inversion H].
    destruct segs as [|seg segs]; [by inversion H|].
    simpl in H. by inversion H.
  - intros self L Hover Hloop. unfold _load_segments.
    rewrite Hover. cbv zeta. by rewrite Hloop.
Qed.

Lemma load_segments_never_empty_witness :
  _segments (_load_segments
               (layer_on "base" (BufferLayer one_segment_source))).1 <> []
  /\ _load_segments (layer_on "base" (BufferLayer []))
     = (layer_on "base" (BufferLayer []),
        Raise (LimeFormat (EmptyContainer "base"))).
Proof.
  split.
  - apply (proj1 load_segments_never_empty
             (layer_on "base" (BufferLayer one_segment_source))).
    vm_compute. reflexivity.
  - apply (proj2 load_segments_never_empty
             (layer_on "base" (BufferLayer [])) (BufferLayer [])).
    + apply layer_on_over.
    + reflexivity.
Defined.

(** C9: a source whose first header has the right magic and a version
    field other than 1 makes [_load_segments] fail with
    UnsupportedVersion, reporting the version found and offset 0. *)
Theorem wrong_version_rejected self L data :
  layer_over self L -> backs L data ->
  _header_struct_size <= len data ->
  field data 0 0 4 = MAGIC ->
  field data 0 4 4 <> VERSION ->
  _load_segments self
  = (self, Raise (LimeFormat (UnsupportedVersion (field data 0 4 4) 0))).
Proof.
  intros Hover HL Hlen Hm Hv.
  apply (load_segments_raise self L 1 _ Hover).
  cbn [_load_segments_loop].
  replace (0 <? maximum_address L) with true.
  2:{ symmetry. apply Z.ltb_lt. destruct HL as [_ Hmax].
      unfold _header_struct_size in Hlen. lia. }
  rewrite (check_header_fields L data HL 0) by (done || lia).
  rewrite Hm, Z.eqb_refl. cbn [negb].
  apply Z.eqb_neq in Hv. by rewrite Hv.
Qed.

Lemma wrong_version_rejected_witness :
  _load_segments (layer_on "base" (BufferLayer version2_source))
  = (layer_on "base" (BufferLayer version2_source),
     Raise (LimeFormat (UnsupportedVersion 2 0))).
Proof.
  apply (wrong_version_rejected
           (layer_on "base" (BufferLayer version2_source))
           (BufferLayer version2_source) version2_source).
  - apply layer_on_over.
  - apply backs_buffer.
  - vm_compute. discriminate.
  - reflexivity.
  - vm_compute. discriminate.
Defined.

End IndexProperties.

(** ** The probe and the stacker *)

Section Detector.

Import LimeLayer.

Variable segmented_init : Context -> string -> string -> outcome LimeLayer.t.
Variable free_layer_name : Context -> string -> string.
Variable path_join : string -> string -> string.

Local Abbreviation stack :=
  (LimeStacker.stack segmented_init free_layer_name path_join).

(** The three ways in which the probe raises [LimeFormatException]. *)
Lemma check_header_errors L off e :
  _check_header L off = Raise (LimeFormat e) ->
  e = HeaderReadFailed off \/
  (exists m, e = BadMagic m off) \/
  (exists v, e = UnsupportedVersion v off).
Proof.
  unfold _check_header.
  destruct (read L off _header_struct_size) as [h|].
  - destruct (_header_struct_unpack h) as [[[[[m v] s] e'] r]|]; [|done].
    destruct (negb (m =? MAGIC)).
    + intros [= <-]. right; left. by exists m.
    + destruct (negb (v =? VERSION)); [|done].
      intros [= <-]. right; right. by exists v.
  - intros [= <-]. by left.
Qed.

Lemma stack_probe_fails context layer_name L e :
  memory context !! layer_name = Some L ->
  _check_header L 0 = Raise (LimeFormat e) ->
  stack context layer_name = (context, Return None).
Proof.
  intros Hm Hc. unfold LimeStacker.stack. by rewrite Hm, Hc.
Qed.

(** C3: [stack] returns [None] exactly when the probe at offset 0 of
    the named layer raises [LimeFormatException] (the header cannot be
    read, the magic is wrong or the version is wrong); when the probe
    accepts and [_load_segments] of the new layer raises, [stack] ends
    with that same exception. *)
Theorem stack_none_iff_probe_fails context layer_name :
  ((stack context layer_name).2 = Return None <->
   exists L e,
     memory context !! layer_name = Some L /\
     _check_header L 0 = Raise (LimeFormat e) /\
     (e = HeaderReadFailed 0 \/ (exists m, e = BadMagic m 0) \/
      (exists v, e = UnsupportedVersion v 0))) /\
  (forall L p self x,
     memory context !! layer_name = Some L ->
     _check_header L 0 = Return p ->
     segmented_init
       {| memory := memory context;
          config := <[path_join (free_layer_name context "LimeLayer")
                        "base_layer" := layer_name]> (config context) |}
       (free_layer_name context "LimeLayer")
       (free_layer_name context "LimeLayer") = Return self ->
     (_load_segments self).2 = Raise x ->
     (stack context layer_name).2 = Raise x).
Proof.
  split; [split|].
  - unfold LimeStacker.stack.
    destruct (memory context !! layer_name) as [L|] eqn:Hm; [|done].
    destruct (_check_header L 0) as [p|e|] eqn:Hc.
    + by destruct (__init__ _ _ _ _).
    + destruct e as [e| | |]; try done.
      intros _. exists L, e. split; [done|]. split; [done|].
      by apply (check_header_errors L 0).
    + done.
  - intros (L & e & Hm & Hc & _).
    by rewrite (stack_probe_fails context layer_name L e).
  - intros L p self x Hm Hc Hinit Hload.
    unfold LimeStacker.stack. rewrite Hm, Hc. cbv zeta.
    unfold __init__. rewrite Hinit.
    destruct (_load_segments self) as [self' r]. simpl in Hload.
    by subst r.
Qed.

(** C5 (amended): a source whose first 4 bytes, read as a
    little-endian number, are not the magic is rejected by [stack]
    ([None], no exception); when the source holds at least one header
    of 32 bytes, [_load_segments] fails with BadMagic at offset 0. *)
Theorem wrong_magic_rejected self L data context layer_name :
  layer_over self L -> memory context !! layer_name = Some L ->
  backs L data ->
  field data 0 0 4 <> MAGIC ->
  stack context layer_name = (context, Return None) /\
  (_header_struct_size <= len data ->
   _load_segments self
   = (self, Raise (LimeFormat (BadMagic (field data 0 0 4) 0)))).
Proof.
  intros Hover Hm HL Hmagic.
  assert (Hprobe : _header_struct_size <= len data ->
            _check_header L 0
            = Raise (LimeFormat (BadMagic (field data 0 0 4) 0))).
  { intros Hlen. rewrite (check_header_fields L data HL 0) by (done || lia).
    apply Z.eqb_neq in Hmagic. by rewrite Hmagic. }
  split.
  - destruct (Z.le_gt_cases _header_struct_size (len data)) as [Hlen|Hlen].
    + apply (stack_probe_fails _ _ L _ Hm (Hprobe Hlen)).
    + apply (stack_probe_fails _ _ L (HeaderReadFailed 0) Hm).
      apply (check_header_short L data HL). lia.
  - intros Hlen. apply (load_segments_raise self L 1 _ Hover).
    cbn [_load_segments_loop].
    replace (0 <? maximum_address L) with true.
    2:{ symmetry. apply Z.ltb_lt. destruct HL as [_ Hmax].
        unfold _header_struct_size in Hlen. lia. }
    by rewrite (Hprobe Hlen).
Qed.

(** C6 (amended): a source shorter than one header of 32 bytes is
    rejected by [stack]; [_load_segments] fails on it with
    EmptyContainer when it has length 0 (the loop is not entered), and
    with HeaderReadFailed at offset 0 when [maximum_address] is
    positive. *)
Theorem short_source_rejected self L data context layer_name :
  layer_over self L -> memory context !! layer_name = Some L ->
  backs L data ->
  len data < _header_struct_size ->
  stack context layer_name = (context, Return None) /\
  (len data = 0 ->
   _load_segments self
   = (self, Raise (LimeFormat (EmptyContainer (_base_layer self))))) /\
  (0 < maximum_address L ->
   _load_segments self = (self, Raise (LimeFormat (HeaderReadFailed 0)))).
Proof.
  intros Hover Hm HL Hlen.
  assert (Hprobe : _check_header L 0 = Raise (LimeFormat (HeaderReadFailed 0)))
    by (apply (check_header_short L data HL); lia).
  split; [|split].
  - apply (stack_probe_fails _ _ L _ Hm Hprobe).
  - intros H0.
    rewrite (load_segments_return self L 0 [] Hover); [done|].
    apply loop_done. destruct HL as [_ Hmax]. lia.
  - intros Hpos. apply (load_segments_raise self L 1 _ Hover).
    cbn [_load_segments_loop].
    replace (0 <? maximum_address L) with true
      by (symmetry; apply Z.ltb_lt; lia).
    by rewrite Hprobe.
Qed.

(** C10 (amended): the probe checks the magic and the version and
    nothing else: wherever the source holds 32 bytes whose magic and
    version fields are right, it returns the start and end fields as
    decoded, whatever their values and order. *)
Theorem check_header_ignores_range L data offset :
  backs L data ->
  0 <= offset -> offset + _header_struct_size <= len data ->
  field data offset 0 4 = MAGIC ->
  field data offset 4 4 = VERSION ->
  _check_header L offset
  = Return (field data offset 8 8, field data offset 16 8).
Proof.
  intros HL H0 H1 Hm Hv.
  rewrite (check_header_fields L data HL offset H0 H1).
  by rewrite Hm, Hv, !Z.eqb_refl.
Qed.

End Detector.

(** ** The stacker on concrete sources *)

Section DetectorExamples.

Import LimeLayer.

Lemma stack_none_iff_probe_fails_witness :
  (stack_default (context_with "base" (BufferLayer inverted_source)) "base").2
  = Raise (LimeFormat (BadRange 4096 512 288))
  /\ (stack_default (context_with "base" (BufferLayer no_magic_source)) "base").2
     = Return None.
Proof.
  split.
  - eapply (proj2 (stack_none_iff_probe_fails (segmented_init_config dotted)
                     fresh_name dotted
                     (context_with "base" (BufferLayer inverted_source)) "base")
              (BufferLayer inverted_source) (0, 255)).
    + apply lookup_singleton_eq.
    + vm_compute. reflexivity.
    + reflexivity.
    + vm_compute. reflexivity.
  - apply (proj1 (stack_none_iff_probe_fails (segmented_init_config dotted)
                    fresh_name dotted
                    (context_with "base" (BufferLayer no_magic_source)) "base")).
    exists (BufferLayer no_magic_source), (BadMagic 0 0).
    split; [apply lookup_singleton_eq|]. split; [vm_compute; reflexivity|].
    right; left. by exists 0.
Defined.

(** C5 (as stated): four bytes that are not the magic, and no more.
    [_load_segments] fails because the header cannot be read, not with
    BadMagic, whichever way the layer reports its extent. *)
Lemma four_bytes_not_bad_magic :
  field four_byte_source 0 0 4 <> MAGIC
  /\ _load_segments (layer_on "base" (BufferLayer four_byte_source))
     = (layer_on "base" (BufferLayer four_byte_source),
        Raise (LimeFormat (HeaderReadFailed 0)))
  /\ _load_segments (layer_on "base" (BufferLayerLast four_byte_source))
     = (layer_on "base" (BufferLayerLast four_byte_source),
        Raise (LimeFormat (HeaderReadFailed 0))).
Proof.
  split; [vm_compute; discriminate|].
  split.
  - apply (load_segments_raise _ (BufferLayer four_byte_source) 1);
      [apply layer_on_over | reflexivity].
  - apply (load_segments_raise _ (BufferLayerLast four_byte_source) 1);
      [apply layer_on_over | reflexivity].
Qed.

Lemma wrong_magic_rejected_witness :
  stack_default (context_with "base" (BufferLayer no_magic_source)) "base"
  = (context_with "base" (BufferLayer no_magic_source), Return None)
  /\ _load_segments (layer_on "base" (BufferLayer no_magic_source))
     = (layer_on "base" (BufferLayer no_magic_source),
        Raise (LimeFormat (BadMagic 0 0))).
Proof.
  destruct (wrong_magic_rejected (segmented_init_config dotted) fresh_name
              dotted (layer_on "base" (BufferLayer no_magic_source))
              (BufferLayer no_magic_source) no_magic_source
              (context_with "base" (BufferLayer no_magic_source)) "base")
    as [Hstack Hload].
  - apply layer_on_over.
  - apply lookup_singleton_eq.
  - apply backs_buffer.
  - vm_compute. discriminate.
  - split; [exact Hstack|]. apply Hload. vm_compute. discriminate.
Defined.

(** C6 (as stated): on the empty source [_load_segments] does not fail
    with HeaderReadFailed; the loop is not entered and the failure is
    EmptyContainer, whichever way the layer reports its extent. *)
Lemma empty_source_not_read_failure :
  _load_segments (layer_on "base" (BufferLayer []))
  = (layer_on "base" (BufferLayer []),
     Raise (LimeFormat (EmptyContainer "base")))
  /\ _load_segments (layer_on "base" (BufferLayerLast []))
     = (layer_on "base" (BufferLayerLast []),
        Raise (LimeFormat (EmptyContainer "base")))
  /\ (_load_segments (layer_on "base" (BufferLayer []))).2
     <> Raise (LimeFormat (HeaderReadFailed 0)).
Proof.
  assert (H : forall L, maximum_address L <= 0 ->
            _load_segments (layer_on "base" L)
            = (layer_on "base" L, Raise (LimeFormat (EmptyContainer "base")))).
  { intros L HL.
    rewrite (load_segments_return _ L 0 []); [done|apply layer_on_over|].
    by apply loop_done. }
  split; [apply H; by vm_compute|]. split; [apply H; by vm_compute|].
  rewrite H by (by vm_compute). discriminate.
Qed.

Lemma short_source_rejected_witness :
  stack_default (context_with "base" (BufferLayer four_byte_source)) "base"
  = (context_with "base" (BufferLayer four_byte_source), Return None)
  /\ _load_segments (layer_on "base" (BufferLayer four_byte_source))
     = (layer_on "base" (BufferLayer four_byte_source),
        Raise (LimeFormat (HeaderReadFailed 0))).
Proof.
  destruct (short_source_rejected (segmented_init_config dotted) fresh_name
              dotted (layer_on "base" (BufferLayer four_byte_source))
              (BufferLayer four_byte_source) four_byte_source
              (context_with "base" (BufferLayer four_byte_source)) "base")
    as (Hstack & _ & Hload).
  - apply layer_on_over.
  - apply lookup_singleton_eq.
  - apply backs_buffer.
  - vm_compute. reflexivity.
  - split; [exact Hstack|]. apply Hload. vm_compute. reflexivity.
Defined.

(** C10 (as stated): the first 28 bytes of a valid header, with the
    right magic and version, are not accepted by the probe: it asks
    the layer for 32 bytes and the read fails. *)
Lemma header_prefix_28_not_accepted :
  len header_prefix_28 = 28
  /\ field header_prefix_28 0 0 4 = MAGIC
  /\ field header_prefix_28 0 4 4 = VERSION
  /\ _check_header (BufferLayer header_prefix_28) 0
     = Raise (LimeFormat (HeaderReadFailed 0)).
Proof. repeat split. Qed.

Lemma check_header_ignores_range_witness :
  _check_header (BufferLayer inverted_header) 0 = Return (4096, 512).
Proof.
  apply (check_header_ignores_range (BufferLayer inverted_header)
           inverted_header 0).
  - apply backs_buffer.
  - lia.
  - vm_compute. discriminate.
  - reflexivity.
  - reflexivity.
Defined.

End DetectorExamples.

(** ** What every stored table looks like *)

Section TableShape.

Import LimeLayer.

(** The probe returns two 64-bit values. *)
Lemma check_header_range L off s e :
  _check_header L off = Return (s, e) ->
  0 <= s < 2 ^ 64 /\ 0 <= e < 2 ^ 64.
Proof.
  unfold _check_header.
  destruct (read L off _header_struct_size) as [h|]; [|done].
  unfold _header_struct_unpack.
  destruct (len h =? _header_struct_size) eqn:Hlen; [|done].
  apply Z.eqb_eq in Hlen. unfold _header_struct_size in Hlen.
  destruct (negb (_ =? MAGIC)); [done|].
  destruct (negb (_ =? VERSION)); [done|].
  intros [= <- <-].
  pose proof (le_decode_range (slice h 8 8)) as Hs.
  pose proof (le_decode_range (slice h 16 8)) as He.
  rewrite len_slice in Hs by lia. rewrite len_slice in He by lia.
  change (256 ^ 8) with (2 ^ 64) in *. done.
Qed.

(** The loop only appends, and what it appends is chained. *)
Lemma loop_chained L base_maxaddr fuel :
  forall maxaddr offset acc segments,
    _load_segments_loop fuel L base_maxaddr maxaddr offset acc
    = Return segments ->
    exists new, segments = acc ++ new /\
                chained base_maxaddr maxaddr offset new.
Proof.
  induction fuel as [|fuel IH]; intros maxaddr offset acc segments.
  - simpl. destruct (offset <? base_maxaddr); [done|].
    intros [= <-]. exists []. by rewrite app_nil_r.
  - cbn [_load_segments_loop].
    destruct (offset <? base_maxaddr) eqn:Hlt.
    2:{ intros [= <-]. exists []. by rewrite app_nil_r. }
    apply Z.ltb_lt in Hlt.
    destruct (_check_header L offset) as [[s e]| |] eqn:Hc; [|done|done].
    destruct ((s <? maxaddr) || (e <? s)) eqn:Hb; [done|].
    apply orb_false_iff in Hb as [Hsm Hes].
    apply Z.ltb_ge in Hsm. apply Z.ltb_ge in Hes.
    apply check_header_range in Hc as [Hs He].
    intros Hrun. apply IH in Hrun as (new & -> & Hnew).
    exists ((s, offset + _header_struct_size, e - s + 1) :: new).
    split; [by rewrite <- app_assoc|].
    cbn [chained].
    replace (s + (e - s + 1) - 1) with e by lia.
    repeat split; (done || lia).
Qed.

Lemma chained_each base_maxaddr segments :
  forall maxaddr offset i a,
    chained base_maxaddr maxaddr offset segments ->
    segments !! i = Some a ->
    maxaddr <= mapped_start a /\ 0 <= mapped_start a /\ 1 <= length_ a /\
    mapped_end a < 2 ^ 64 /\
    offset + _header_struct_size <= source_offset a /\
    source_offset a - _header_struct_size < base_maxaddr.
Proof.
  induction segments as [|[[s src] l] rest IH]; intros maxaddr offset i a H Hi;
    [done|].
  destruct H as (Hoff & Hm & H0 & Hl & He & -> & Hrest).
  destruct i as [|i].
  - simpl in Hi. injection Hi as <-.
    unfold mapped_end, mapped_start, source_offset, length_. cbn [fst snd].
    repeat split; lia.
  - simpl in Hi. destruct (IH _ _ i a Hrest Hi) as (? & ? & ? & ? & ? & ?).
    unfold _header_struct_size in *. repeat split; lia.
Qed.

Lemma chained_next base_maxaddr segments :
  forall maxaddr offset i a b,
    chained base_maxaddr maxaddr offset segments ->
    segments !! i = Some a -> segments !! S i = Some b ->
    mapped_end a <= mapped_start b /\
    source_offset b = source_offset a + length_ a + _header_struct_size.
Proof.
  induction segments as [|[[s src] l] rest IH];
    intros maxaddr offset i a b H Hi Hj; [done|].
  destruct H as (Hoff & Hm & H0 & Hl & He & -> & Hrest).
  destruct i as [|i].
  - simpl in Hi, Hj. injection Hi as <-.
    destruct rest as [|[[s2 src2] l2] rest]; [done|].
    simpl in Hj. injection Hj as <-.
    destruct Hrest as (_ & Hm2 & _ & _ & _ & -> & _).
    unfold mapped_end, mapped_start, source_offset, length_. cbn [fst snd].
    split; lia.
  - simpl in Hi, Hj. by apply (IH _ _ i a b Hrest).
Qed.

Lemma chained_count base_maxaddr segments :
  forall maxaddr offset,
    chained base_maxaddr maxaddr offset segments ->
    offset + (_header_struct_size + 1) * Z.of_nat (length segments)
    <= Z.max offset (base_maxaddr + _header_struct_size).
Proof.
  induction segments as [|[[s src] l] rest IH]; intros maxaddr offset H.
  - simpl. lia.
  - destruct H as (Hoff & Hm & H0 & Hl & He & -> & Hrest).
    apply IH in Hrest. cbn [length]. unfold _header_struct_size in *. lia.
Qed.

(** The table a successful call stores is chained from the start of the
    base layer. *)
Lemma stored_table_chained self self' L :
  layer_over self L ->
  _load_segments self = (self', Return tt) ->
  chained (maximum_address L) 0 0 (_segments self') /\ _segments self' <> [].
Proof.
  intros Hover Hload.
  destruct (load_segments_success_stores_scan self self' Hload)
    as (L' & segs & Hover' & Hloop & ->).
  unfold layer_over in *. rewrite Hover in Hover'. injection Hover' as <-.
  apply loop_chained in Hloop as Hch. destruct Hch as (new & -> & Hch).
  split; [done|]. simpl.
  unfold _load_segments in Hload. rewrite Hover in Hload. cbv zeta in Hload.
  rewrite Hloop in Hload. simpl in *.
  by destruct new.
Qed.

(** X1: [_load_segments] always comes to an end, with a return or an
    exception, whatever the base layer answers: every header the loop
    accepts moves the offset forward by at least 33, so the
    [maximum_address] iterations it is given are never used up. *)
Theorem load_segments_terminates self :
  (_load_segments self).2 = Return tt \/
  exists e, (_load_segments self).2 = Raise e.
Proof.
  pose proof (load_segments_total self) as Ht.
  destruct (_load_segments self).2 as [[]|e|]; [by left|right; by exists e|done].
Qed.

(** X2: in a table stored by a successful [_load_segments] every segment
    has a start of at least 0, a length of at least 1, an end below 2^64
    and a source offset of at least 32; the header it was read from lies
    below [maximum_address]; the first segment has source offset 32;
    and the table has at most (maximum_address + 32) / 33 entries. *)
Theorem stored_segments_bounds self self' L :
  layer_over self L ->
  _load_segments self = (self', Return tt) ->
  (forall i a, _segments self' !! i = Some a ->
     0 <= mapped_start a /\ 1 <= length_ a /\ mapped_end a < 2 ^ 64 /\
     32 <= source_offset a /\ source_offset a - 32 < maximum_address L) /\
  (forall a, _segments self' !! 0%nat = Some a -> source_offset a = 32) /\
  33 * Z.of_nat (length (_segments self')) <= maximum_address L + 32.
Proof.
  intros Hover Hload.
  destruct (stored_table_chained self self' L Hover Hload) as [Hch Hne].
  split; [|split].
  - intros i a Hi.
    destruct (chained_each _ _ _ _ i a Hch Hi) as (? & ? & ? & ? & ? & ?).
    unfold _header_struct_size in *. repeat split; lia.
  - intros a Ha. destruct (_segments self') as [|[[s src] l] rest]; [done|].
    simpl in Ha. injection Ha as <-. by destruct Hch as (_ & _ & _ & _ & _ & -> & _).
  - pose proof (chained_count _ _ _ _ Hch) as Hc.
    destruct (_segments self') as [|[[s src] l] rest]; [done|].
    destruct Hch as (Hoff & _). unfold _header_struct_size in Hc. lia.
Qed.

Lemma stored_segments_bounds_witness :
  (forall i a,
     _segments (_load_segments
                  (layer_on "base" (BufferLayer two_segment_source))).1 !! i
     = Some a ->
     0 <= mapped_start a /\ 1 <= length_ a /\ mapped_end a < 2 ^ 64 /\
     32 <= source_offset a /\
     source_offset a - 32 < maximum_address (BufferLayer two_segment_source)) /\
  (forall a,
     _segments (_load_segments
                  (layer_on "base" (BufferLayer two_segment_source))).1 !! 0%nat
     = Some a -> source_offset a = 32) /\
  33 * Z.of_nat (length (_segments
                           (_load_segments
                              (layer_on "base"
                                 (BufferLayer two_segment_source))).1))
  <= maximum_address (BufferLayer two_segment_source) + 32.
Proof.
  apply (stored_segments_bounds
           (layer_on "base" (BufferLayer two_segment_source)) _
           (BufferLayer two_segment_source)).
  - apply layer_on_over.
  - vm_compute. reflexivity.
Defined.

(** X3: in a table stored by a successful [_load_segments] each segment
    starts at or above the end of the one before it, and its payload is
    located right behind the payload of the one before it and its own
    32-byte header. *)
Theorem stored_segments_chained self self' L i a b :
  layer_over self L ->
  _load_segments self = (self', Return tt) ->
  _segments self' !! i = Some a ->
  _segments self' !! S i = Some b ->
  mapped_end a <= mapped_start b /\
  mapped_start a <= mapped_start b /\
  source_offset b = source_offset a + length_ a + 32.
Proof.
  intros Hover Hload Hi Hj.
  destruct (stored_table_chained self self' L Hover Hload) as [Hch _].
  destruct (chained_next _ _ _ _ i a b Hch Hi Hj) as [H1 H2].
  destruct (chained_each _ _ _ _ i a Hch Hi) as (_ & _ & Hl & _).
  unfold mapped_end in *. unfold _header_struct_size in *.
  repeat split; lia.
Qed.

Lemma stored_segments_chained_witness :
  mapped_end (0, 32, 256) <= mapped_start (4096, 320, 256) /\
  mapped_start (0, 32, 256) <= mapped_start (4096, 320, 256) /\
  source_offset (4096, 320, 256)
  = source_offset (0, 32, 256) + length_ (0, 32, 256) + 32.
Proof.
  apply (stored_segments_chained
           (layer_on "base" (BufferLayer two_segment_source))
           (_load_segments (layer_on "base" (BufferLayer two_segment_source))).1
           (BufferLayer two_segment_source) 0).
  - apply layer_on_over.
  - vm_compute. reflexivity.
  - vm_compute. reflexivity.
  - vm_compute. reflexivity.
Defined.

End TableShape.

(** ** Failures in the middle of a scan *)

Section MidScan.

Import LimeLayer.

Lemma overlapping_start_rejected_witness :
  _load_segments (layer_on "base" (BufferLayer overlapping_source))
  = (layer_on "base" (BufferLayer overlapping_source),
     Raise (LimeFormat (BadRange 100 600 288))).
Proof.
  apply (overlapping_start_rejected
           (layer_on "base" (BufferLayer overlapping_source))
           (BufferLayer overlapping_source) [plain_chunk 0 255] 100 600 0 []).
  - apply layer_on_over.
  - unfold overlapping_source. rewrite app_nil_r. apply backs_buffer.
  - simpl. split; [lia|]. split; [apply plain_chunk_wf; lia|exact I].
  - lia.
  - lia.
  - simpl. lia.
Defined.

(** X5: the payload is never looked at. A source that is one valid
    header with a range that is not inverted, followed by no more bytes
    than the range announces (possibly none), is indexed as one segment
    of the full announced length. *)
Theorem truncated_payload_indexed self L s e r rest :
  layer_over self L ->
  backs L (_header_struct_pack MAGIC VERSION s e r ++ rest) ->
  0 <= s -> s <= e -> e < 2 ^ 64 ->
  len rest <= e - s + 1 ->
  _load_segments self = (set_segments self [(s, 32, e - s + 1)], Return tt).
Proof.
  intros Hover HL H0 Hse He Hrest.
  assert (HL' : backs L ([] ++ _header_struct_pack MAGIC VERSION s e r ++ rest))
    by done.
  pose proof (check_header_pack L [] s e r rest HL' ltac:(lia) ltac:(lia)) as Hc.
  change (len []) with 0 in Hc.
  destruct HL as [_ Hmax]. rewrite len_app, len_pack in Hmax.
  pose proof (len_nonneg rest). unfold _header_struct_size in Hmax.
  rewrite (load_segments_return self L 1 [(s, 32, e - s + 1)] Hover); [done|].
  cbn [_load_segments_loop].
  replace (0 <? maximum_address L) with true by (symmetry; apply Z.ltb_lt; lia).
  rewrite Hc.
  replace ((s <? 0) || (e <? s)) with false.
  2:{ symmetry. apply orb_false_iff. split; apply Z.ltb_ge; lia. }
  cbv zeta.
  replace (0 + _header_struct_size + (e - s + 1) <? maximum_address L) with false
    by (symmetry; apply Z.ltb_ge; unfold _header_struct_size; lia).
  reflexivity.
Qed.

Lemma truncated_payload_indexed_witness :
  _load_segments (layer_on "base" (BufferLayer truncated_source))
  = (set_segments (layer_on "base" (BufferLayer truncated_source))
       [(0, 32, 256)], Return tt).
Proof.
  apply (truncated_payload_indexed
           (layer_on "base" (BufferLayer truncated_source))
           (BufferLayer truncated_source) 0 255 0 (zeros 3)).
  - apply layer_on_over.
  - apply backs_buffer.
  - lia.
  - lia.
  - lia.
  - vm_compute. discriminate.
Defined.

(** X6: when the segments the scan accepted are followed by fewer than
    32 bytes and the offset behind them is still below
    [maximum_address], [_load_segments] fails with HeaderReadFailed at
    that offset and stores nothing. *)
Theorem trailing_bytes_read_failure self L cs tail :
  layer_over self L ->
  backs L (encode_chunks cs ++ tail) ->
  accepted 0 cs ->
  len tail < _header_struct_size ->
  len (encode_chunks cs) < maximum_address L ->
  _load_segments self
  = (self, Raise (LimeFormat (HeaderReadFailed (len (encode_chunks cs))))).
Proof.
  intros Hover HL Hacc Htail Hmore.
  apply (load_segments_raise self L (length cs + 1) _ Hover).
  rewrite (scan_behind_chunks L cs tail 1 HL Hacc).
  cbn [_load_segments_loop].
  replace (len (encode_chunks cs) <? maximum_address L) with true
    by (symmetry; by apply Z.ltb_lt).
  rewrite (check_header_short L _ HL); [done|].
  rewrite len_app. lia.
Qed.

Lemma trailing_bytes_read_failure_witness :
  _load_segments (layer_on "base" (BufferLayer trailing_source))
  = (layer_on "base" (BufferLayer trailing_source),
     Raise (LimeFormat (HeaderReadFailed 288))).
Proof.
  apply (trailing_bytes_read_failure
           (layer_on "base" (BufferLayer trailing_source))
           (BufferLayer trailing_source) [plain_chunk 0 255] (zeros 10)).
  - apply layer_on_over.
  - apply backs_buffer.
  - simpl. split; [lia|]. split; [apply plain_chunk_wf; lia|exact I].
  - vm_compute. reflexivity.
  - vm_compute. reflexivity.
Defined.

(** X7: magic and version are checked at every header, not only the
    first. Behind any run of accepted segments, 32 bytes whose magic
    field is wrong make [_load_segments] fail with BadMagic, and 32
    bytes with the right magic and a version other than 1 with
    UnsupportedVersion; both report the value found and the file offset
    of that header. *)
Theorem later_header_rejected self L cs tail :
  layer_over self L ->
  backs L (encode_chunks cs ++ tail) ->
  accepted 0 cs ->
  _header_struct_size <= len tail ->
  (field tail 0 0 4 <> MAGIC ->
   _load_segments self
   = (self, Raise (LimeFormat (BadMagic (field tail 0 0 4)
                                 (len (encode_chunks cs)))))) /\
  (field tail 0 0 4 = MAGIC -> field tail 0 4 4 <> VERSION ->
   _load_segments self
   = (self, Raise (LimeFormat (UnsupportedVersion (field tail 0 4 4)
                                 (len (encode_chunks cs)))))).
Proof.
  intros Hover HL Hacc Htail.
  assert (Hf : forall o n, 0 <= o -> 0 <= n ->
            field (encode_chunks cs ++ tail) (len (encode_chunks cs)) o n
            = field tail 0 o n).
  { intros o n Ho Hn. unfold field, slice, len.
    rewrite Z2Nat.inj_add, Nat2Z.id by lia.
    rewrite <- drop_drop, drop_app_length. by rewrite Z.add_0_l. }
  assert (Hc : _check_header L (len (encode_chunks cs))
            = if negb (field tail 0 0 4 =? MAGIC) then
                Raise (LimeFormat (BadMagic (field tail 0 0 4)
                                     (len (encode_chunks cs))))
              else if negb (field tail 0 4 4 =? VERSION) then
                Raise (LimeFormat (UnsupportedVersion (field tail 0 4 4)
                                     (len (encode_chunks cs))))
              else Return (field tail 0 8 8, field tail 0 16 8)).
  { rewrite (check_header_fields L _ HL).
    - by rewrite !Hf by lia.
    - apply len_nonneg.
    - rewrite len_app. lia. }
  assert (Hrun : forall e,
            _check_header L (len (encode_chunks cs)) = Raise e ->
            _load_segments self = (self, Raise e)).
  { intros e He.
    apply (load_segments_raise self L (length cs + 1) _ Hover).
    rewrite (scan_behind_chunks L cs tail 1 HL Hacc).
    cbn [_load_segments_loop].
    replace (len (encode_chunks cs) <? maximum_address L) with true.
    2:{ symmetry. apply Z.ltb_lt. destruct HL as [_ Hmax].
        rewrite len_app in Hmax. unfold _header_struct_size in Htail. lia. }
    by rewrite He. }
  split.
  - intros Hm. apply Hrun. rewrite Hc.
    apply Z.eqb_neq in Hm. by rewrite Hm.
  - intros Hm Hv. apply Hrun. rewrite Hc.
    rewrite Hm, Z.eqb_refl. apply Z.eqb_neq in Hv. by rewrite Hv.
Qed.

Lemma later_header_rejected_witness :
  _load_segments (layer_on "base" (BufferLayer later_version2_source))
  = (layer_on "base" (BufferLayer later_version2_source),
     Raise (LimeFormat (UnsupportedVersion 2 288))).
Proof.
  destruct (later_header_rejected
              (layer_on "base" (BufferLayer later_version2_source))
              (BufferLayer later_version2_source) [plain_chunk 0 255]
              (_header_struct_pack MAGIC 2 4096 4351 0))
    as [_ Hv].
  - apply layer_on_over.
  - apply backs_buffer.
  - simpl. split; [lia|]. split; [apply plain_chunk_wf; lia|exact I].
  - vm_compute. discriminate.
  - apply Hv; [reflexivity | vm_compute; discriminate].
Defined.

(** X8: the scan starts with the very check the probe makes. On a base
    layer with a positive [maximum_address], whatever exception
    [_check_header] raises at offset 0 is the exception
    [_load_segments] ends with, and nothing is stored. *)
Theorem probe_failure_fails_build self L e :
  layer_over self L ->
  0 < maximum_address L ->
  _check_header L 0 = Raise e ->
  _load_segments self = (self, Raise e).
Proof.
  intros Hover Hpos Hc.
  apply (load_segments_raise self L 1 _ Hover).
  cbn [_load_segments_loop].
  replace (0 <? maximum_address L) with true by (symmetry; by apply Z.ltb_lt).
  by rewrite Hc.
Qed.

Lemma probe_failure_fails_build_witness :
  _load_segments (layer_on "base" (BufferLayer no_magic_source))
  = (layer_on "base" (BufferLayer no_magic_source),
     Raise (LimeFormat (BadMagic 0 0))).
Proof.
  apply (probe_failure_fails_build
           (layer_on "base" (BufferLayer no_magic_source))
           (BufferLayer no_magic_source)).
  - apply layer_on_over.
  - vm_compute. reflexivity.
  - vm_compute. reflexivity.
Defined.

(** X9: whenever [_load_segments] succeeds the probe at offset 0 of the
    base layer accepts, and the first segment of the stored table is
    made of the range the probe returns: its start, source offset 32
    and length end - start + 1. *)
Theorem build_success_probe_accepts self self' L :
  layer_over self L ->
  _load_segments self = (self', Return tt) ->
  exists s e,
    _check_header L 0 = Return (s, e) /\
    head (_segments self') = Some (s, 32, e - s + 1).
Proof.
  intros Hover Hload.
  destruct (stored_table_chained self self' L Hover Hload) as [_ Hne].
  destruct (load_segments_success_stores_scan self self' Hload)
    as (L' & segs & Hover' & Hloop & ->).
  unfold layer_over in *. rewrite Hover in Hover'. injection Hover' as <-.
  simpl in Hne |- *.
  destruct (Z.to_nat (maximum_address L)) as [|fuel].
  - simpl in Hloop. destruct (0 <? maximum_address L); [done|].
    by injection Hloop as <-.
  - cbn [_load_segments_loop] in Hloop.
    destruct (0 <? maximum_address L).
    2:{ by injection Hloop as <-. }
    destruct (_check_header L 0) as [[s e]| |]; [|done|done].
    exists s, e. split; [done|].
    destruct ((s <? 0) || (e <? s)); [done|].
    apply loop_chained in Hloop as (new & -> & _). reflexivity.
Qed.

Lemma build_success_probe_accepts_witness :
  exists s e,
    _check_header (BufferLayer one_segment_source) 0 = Return (s, e) /\
    head (_segments
            (_load_segments
               (layer_on "base" (BufferLayer one_segment_source))).1)
    = Some (s, 32, e - s + 1).
Proof.
  apply (build_success_probe_accepts
           (layer_on "base" (BufferLayer one_segment_source))).
  - apply layer_on_over.
  - vm_compute. reflexivity.
Defined.

(** X12: running [_load_segments] again on the object it left gives the
    same object and the same outcome: the scan reads the base layer
    only, never the table already stored. *)
Theorem load_segments_idempotent self :
  _load_segments (_load_segments self).1 = _load_segments self.
Proof.
  unfold _load_segments at 2 3.
  destruct (memory (_context self) !! _base_layer self) as [L|] eqn:Hm.
  - cbv zeta.
    destruct (_load_segments_loop _ _ _ _ _ _) as [segs|e|] eqn:Hloop.
    + destruct (length segs =? 0)%nat eqn:Hlen.
      * simpl. unfold _load_segments. by rewrite Hm, Hloop, Hlen.
      * simpl. unfold _load_segments. simpl. by rewrite Hm, Hloop, Hlen.
    + simpl. unfold _load_segments. by rewrite Hm, Hloop.
    + simpl. unfold _load_segments. by rewrite Hm, Hloop.
  - simpl. unfold _load_segments. by rewrite Hm.
Qed.

End MidScan.

(** ** What [stack] does to the context and what it returns *)

Section StackEffects.

Import LimeLayer.

Variable segmented_init : Context -> string -> string -> outcome LimeLayer.t.
Variable free_layer_name : Context -> string -> string.
Variable path_join : string -> string -> string.

Local Abbreviation stack :=
  (LimeStacker.stack segmented_init free_layer_name path_join).

Local Abbreviation base_layer_key context :=
  (path_join (free_layer_name context "LimeLayer") "base_layer").

(** X10: [stack] never changes [context.memory] and touches no
    configuration entry but the [base_layer] entry of the new name. When
    it returns [None] the context is the one it was given. When the
    probe accepts, that entry holds the name of the probed layer after
    the call, also when the construction of the layer then fails. *)
Theorem stack_context_effect context layer_name :
  memory (stack context layer_name).1 = memory context /\
  (forall key, key <> base_layer_key context ->
     config (stack context layer_name).1 !! key = config context !! key) /\
  ((stack context layer_name).2 = Return None ->
   (stack context layer_name).1 = context) /\
  (forall L p,
     memory context !! layer_name = Some L ->
     _check_header L 0 = Return p ->
     config (stack context layer_name).1 !! base_layer_key context
     = Some layer_name).
Proof.
  unfold LimeStacker.stack.
  destruct (memory context !! layer_name) as [L|] eqn:Hm.
  2:{ simpl. repeat split; done. }
  destruct (_check_header L 0) as [p|e|] eqn:Hc.
  - cbv zeta.
    destruct (__init__ _ _ _ _) as [layer|e|]; simpl;
      (split; [done|]; split;
       [intros key Hkey; by rewrite lookup_insert_ne|];
       split; [done|]; intros L' p' _ _; by rewrite lookup_insert_eq).
  - destruct e as [e| | |]; simpl; (repeat split; try done);
      intros L' p' [= <-]; by rewrite Hc.
  - simpl. repeat split; try done. intros L' p' [= <-]. by rewrite Hc.
Qed.

(** X11: a layer returned by [stack] is the object the parent
    constructor made for the new name, with nothing changed but its
    segment table, and that table is not empty; the probe accepted the
    named layer, and the configuration of the context after the call
    names it as the base layer of the new one. *)
Theorem stack_returns_indexed_layer context layer_name context' layer :
  stack context layer_name = (context', Return (Some layer)) ->
  _segments layer <> [] /\
  (exists L p, memory context !! layer_name = Some L /\
               _check_header L 0 = Return p) /\
  (exists self,
     segmented_init context' (free_layer_name context "LimeLayer")
       (free_layer_name context "LimeLayer") = Return self /\
     layer = set_segments self (_segments layer)) /\
  config context' !! base_layer_key context = Some layer_name.
Proof.
  unfold LimeStacker.stack.
  destruct (memory context !! layer_name) as [L|] eqn:Hm; [|done].
  destruct (_check_header L 0) as [p|e|] eqn:Hc.
  2:{ by destruct e. }
  2:{ done. }
  cbv zeta. unfold __init__.
  destruct (segmented_init _ _ _) as [self|e|] eqn:Hinit; [|done|done].
  destruct (_load_segments self) as [self' r] eqn:Hload.
  destruct r as [[]|e|]; [|done|done].
  intros [= <- <-].
  destruct (load_segments_success_stores_scan self self' Hload)
    as (L' & segs & Hover & Hloop & ->).
  split.
  - by destruct (stored_table_chained self _ L' Hover Hload) as [_ Hne].
  - split; [by exists L, p|]. split.
    + exists self. split; [done|reflexivity].
    + simpl. by rewrite lookup_insert_eq.
Qed.

End StackEffects.

Section StackExamples.

Import LimeLayer.

Lemma stack_context_effect_witness :
  config (stack_default
            (context_with "base" (BufferLayer inverted_source)) "base").1
    !! dotted (fresh_name (context_with "base" (BufferLayer inverted_source))
                 "LimeLayer") "base_layer"
  = Some "base"
  /\ (stack_default
        (context_with "base" (BufferLayer inverted_source)) "base").2
     = Raise (LimeFormat (BadRange 4096 512 288)).
Proof.
  split.
  - apply (proj2 (proj2 (proj2
             (stack_context_effect (segmented_init_config dotted) fresh_name
                dotted (context_with "base" (BufferLayer inverted_source))
                "base")))
             (BufferLayer inverted_source) (0, 255)).
    + apply lookup_singleton_eq.
    + vm_compute. reflexivity.
  - vm_compute. reflexivity.
Defined.

Lemma stack_returns_indexed_layer_witness :
  _segments
    {| _context :=
         (stack_default
            (context_with "base" (BufferLayer one_segment_source)) "base").1;
       _config_path := "LimeLayer"; _name := "LimeLayer";
       _base_layer := "base"; _segments := [(0, 32, 256)] |} <> [].
Proof.
  apply (stack_returns_indexed_layer (segmented_init_config dotted) fresh_name
           dotted (context_with "base" (BufferLayer one_segment_source))
           "base"
           (stack_default
              (context_with "base" (BufferLayer one_segment_source)) "base").1).
  vm_compute. reflexivity.
Defined.

End StackExamples.
